(** * tiny-reactive-dataflow: a shallow embedding of the propagation engine

    The development follows [tiny-reactive-dataflow.js] (the ES-module
    version, with [get], the Promise guard and the cycle path message):
    the queue of update batches, [register], and the [async] function [set]
    with its local helpers [visitNode], [visitReachableFnsFromParams] and
    [setNodeValue].

    JavaScript objects used as dictionaries and [Map]s are finite maps,
    insertion-ordered [Set]s are duplicate-free lists, function objects live
    in a heap indexed by references (the engine stores its per-node counter
    [numDirtyDeps] as a property of the function object itself), exceptions
    and the suspension of [await] are completions of a small state monad. *)

From Stdlib Require Import ZArith String List Bool Lia.
From stdpp Require Import base option list gmap strings fin_maps.
Import ListNotations.

Set Warnings "-register-all,-clear-no-such-hyp".
Local Open Scope string_scope.
Local Open Scope list_scope.
Local Open Scope Z_scope.

(** ** JavaScript values *)

(** The values that can sit in [dataflow.value] or be passed around by the
    engine.  An object is given by the properties that a property read on it
    finds, own or inherited (a Promise is an object whose [then] is a
    function).  Numbers are restricted to integers: the engine never
    computes with a value, it only stores and compares them. *)
Inductive Value : Type :=
| VUndefined
| VNull
| VBool (b : bool)
| VNumber (n : Z)
| VString (s : string)
| VObject (props : list (string * Value))
| VFunction (ref : nat).

Inductive JsType : Type :=
| TUndefined | TObject | TBoolean | TNumber | TString | TFunction.

(** [typeof value] *)
Definition typeof (v : Value) : JsType :=
  match v with
  | VUndefined => TUndefined
  | VNull => TObject
  | VBool _ => TBoolean
  | VNumber _ => TNumber
  | VString _ => TString
  | VObject _ => TObject
  | VFunction _ => TFunction
  end.

(** What can be thrown: an [Error] or a [TypeError] raised by the engine or
    the language, or whatever value a producer throws. *)
Inductive Exn : Type :=
| JsError (msg : string)
| JsTypeError (msg : string)
| JsThrown (v : Value).

Fixpoint assoc (k : string) (props : list (string * Value)) : option Value :=
  match props with
  | [] => None
  | (k', v) :: rest => if String.eqb k k' then Some v else assoc k rest
  end.

(** [value.key]: reading a property of [null] or [undefined] throws a
    [TypeError]; a property that is not there reads as [undefined]. *)
Definition getProp (v : Value) (key : string) : Exn + Value :=
  match v with
  | VUndefined =>
      inl (JsTypeError ("Cannot read properties of undefined (reading '" +:+ key +:+ "')"))
  | VNull =>
      inl (JsTypeError ("Cannot read properties of null (reading '" +:+ key +:+ "')"))
  | VObject props => inr (default VUndefined (assoc key props))
  | _ => inr VUndefined
  end.

(** A structural comparison of values, one admissible reading of Lodash's
    [_.isEqual] on the values above (functions compare by reference). *)
Fixpoint deepEqual (a b : Value) {struct a} : bool :=
  match a, b with
  | VUndefined, VUndefined => true
  | VNull, VNull => true
  | VBool x, VBool y => Bool.eqb x y
  | VNumber x, VNumber y => Z.eqb x y
  | VString x, VString y => String.eqb x y
  | VFunction x, VFunction y => Nat.eqb x y
  | VObject ps, VObject qs =>
      (fix props_eq (ps qs : list (string * Value)) {struct ps} : bool :=
         match ps, qs with
         | [], [] => true
         | (k, v) :: ps', (k', v') :: qs' =>
             String.eqb k k' && deepEqual v v' && props_eq ps' qs'
         | _, _ => false
         end) ps qs
  | _, _ => false
  end.

(** The deep-equality predicate is an external collaborator of the engine
    (Lodash); the engine is developed over any such predicate. *)
Class IsEqual := isEqual : Value -> Value -> bool.

(** ** Batches, producers and function objects *)

(** An update batch [{name: value, ...}], as [Object.entries] enumerates
    it. *)
Definition Batch : Type := list (string * Value).

(** How the promise of a producer call ends: [await Promise.allSettled]
    resumes only when every promise of the round has settled. *)
Inductive Settlement : Type :=
| Fulfilled (v : Value)
| Rejected (reason : Value)
| NeverSettles.

(** What the call [fn(...args)] itself does: a function that is not [async]
    can throw out of the call; otherwise the call returns a value or a
    promise, which [Promise.allSettled] treats alike. *)
Inductive CallResult : Type :=
| Throws (reason : Value)
| Returns (p : Settlement).

(** One run of a producer: the batches it passes to [dataflow.set] while it
    runs, in order, and how the call ends.  The nested [set] calls of a
    round are taken in launch order. *)
Record Run : Type := mkRun {
  run_sets : list Batch;
  run_result : CallResult
}.

Definition Producer : Type := list Value -> Run.

(** A function object: its [name] property, the parameter names that
    [getParamNames] extracts from its source text (an external
    collaborator), its behaviour when called, and the property
    [numDirtyDeps] that [set] keeps on it. *)
Record FnObj : Type := mkFn {
  fn_name : string;
  fn_params : list string;
  fn_body : Producer;
  numDirtyDeps : Z
}.

(** The record that [set] pushes on [dataflow.errors]. *)
Record ErrInfo : Type := mkErrInfo {
  functionName : string;
  functionParams : list Value;
  reason : Value
}.

(** The lines the engine writes with [console.log] (those guarded by
    [DEBUG_DATAFLOW] included): they are the observable trace of a run. *)
Inductive LogEntry : Type :=
| LogSetting (name : string) (v : Value)
| LogCalling (name : string) (args : list Value)
| LogError (info : ErrInfo)
| LogNextBatch
| LogEnded.

(** ** The queue of [newQueue] *)

Record Queue : Type := mkQueue {
  headIdx : nat;
  tailIdx : nat;
  elts : gmap nat Batch
}.

Definition newQueue : Queue := mkQueue 0 0 ∅.

Definition enqueue (elt : Batch) (queue : Queue) : Queue :=
  mkQueue (headIdx queue) (S (tailIdx queue)) (<[tailIdx queue := elt]> (elts queue)).

(** [dequeue] throws on an empty queue; otherwise it returns
    [elts[headIdx]] (which reads as [undefined] when absent) and advances
    the head. *)
Definition dequeue (queue : Queue) : Exn + (option Batch * Queue) :=
  if Nat.eqb (headIdx queue) (tailIdx queue) then inl (JsError "Queue is empty")
  else inr (elts queue !! headIdx queue,
            mkQueue (S (headIdx queue)) (tailIdx queue) (elts queue)).


Definition isEmpty (queue : Queue) : bool :=
  Nat.eqb (tailIdx queue) (headIdx queue).

(** ** The [dataflow] object *)

Record Dataflow : Type := mkDataflow {
  fnObjects : gmap nat FnObj;                      (* the function objects *)
  nameToFn : gmap string nat;                      (* name -> function *)
  nodeToUpstreamNodes : gmap string (list string);   (* name -> list of names *)
  nodeToDownstreamNodes : gmap string (list string); (* name -> list of names *)
  updateBatches : Queue;                           (* queue of batches *)
  value : gmap string Value;                       (* name -> cached value *)
  valueChanged : gmap string bool;                 (* name -> boolean *)
  inProgress : bool;
  errors : list ErrInfo;
  console : list LogEntry
}.

(** The engine before any registration, over the function objects of the
    program. *)
Definition newDataflow (fns : gmap nat FnObj) : Dataflow :=
  mkDataflow fns ∅ ∅ ∅ newQueue ∅ ∅ false [] [].

(** ** Completions and the engine monad *)

(** How a piece of the engine ends: normally, by a thrown exception, by an
    [await] that never resumes, or (in the model only) by running out of
    fuel. *)
Inductive Completion (A : Type) : Type :=
| Normal (a : A)
| Thrown (e : Exn)
| Stalled
| OutOfFuel.

Arguments Normal {A} a.
Arguments Thrown {A} e.
Arguments Stalled {A}.
Arguments OutOfFuel {A}.

Definition M (A : Type) : Type := Dataflow -> Completion A * Dataflow.

Definition ret {A} (a : A) : M A := fun st => (Normal a, st).

Definition bind {A B} (m : M A) (k : A -> M B) : M B :=
  fun st =>
    match m st with
    | (Normal a, st') => k a st'
    | (Thrown e, st') => (Thrown e, st')
    | (Stalled, st') => (Stalled, st')
    | (OutOfFuel, st') => (OutOfFuel, st')
    end.

Definition throw {A} (e : Exn) : M A := fun st => (Thrown e, st).
Definition stall {A} : M A := fun st => (Stalled, st).
Definition outOfFuel {A} : M A := fun st => (OutOfFuel, st).
Definition gets {A} (f : Dataflow -> A) : M A := fun st => (Normal (f st), st).
Definition modify (f : Dataflow -> Dataflow) : M unit := fun st => (Normal tt, f st).

Notation "x <- m ;; k" := (bind m (fun x => k))
  (at level 100, m at next level, right associativity).
Notation "m ;;; k" := (bind m (fun _ => k))
  (at level 100, right associativity).

(** A [for ... of] loop over an array or [Set], threading the locals of
    the loop body. *)
Fixpoint forEachM {A S : Type} (body : A -> S -> M S) (l : list A) (acc : S) : M S :=
  match l with
  | [] => ret acc
  | x :: rest => acc' <- body x acc ;; forEachM body rest acc'
  end.

(** Field updates of the [dataflow] object. *)
Definition set_fnObjects (h : gmap nat FnObj) (st : Dataflow) : Dataflow :=
  mkDataflow h (nameToFn st) (nodeToUpstreamNodes st) (nodeToDownstreamNodes st)
    (updateBatches st) (value st) (valueChanged st) (inProgress st) (errors st) (console st).

Definition set_nameToFn (m : gmap string nat) (st : Dataflow) : Dataflow :=
  mkDataflow (fnObjects st) m (nodeToUpstreamNodes st) (nodeToDownstreamNodes st)
    (updateBatches st) (value st) (valueChanged st) (inProgress st) (errors st) (console st).

Definition set_nodeToUpstreamNodes (m : gmap string (list string)) (st : Dataflow) : Dataflow :=
  mkDataflow (fnObjects st) (nameToFn st) m (nodeToDownstreamNodes st)
    (updateBatches st) (value st) (valueChanged st) (inProgress st) (errors st) (console st).

Definition set_nodeToDownstreamNodes (m : gmap string (list string)) (st : Dataflow) : Dataflow :=
  mkDataflow (fnObjects st) (nameToFn st) (nodeToUpstreamNodes st) m
    (updateBatches st) (value st) (valueChanged st) (inProgress st) (errors st) (console st).

Definition set_updateBatches (q : Queue) (st : Dataflow) : Dataflow :=
  mkDataflow (fnObjects st) (nameToFn st) (nodeToUpstreamNodes st) (nodeToDownstreamNodes st)
    q (value st) (valueChanged st) (inProgress st) (errors st) (console st).

Definition set_value (m : gmap string Value) (st : Dataflow) : Dataflow :=
  mkDataflow (fnObjects st) (nameToFn st) (nodeToUpstreamNodes st) (nodeToDownstreamNodes st)
    (updateBatches st) m (valueChanged st) (inProgress st) (errors st) (console st).

Definition set_valueChanged (m : gmap string bool) (st : Dataflow) : Dataflow :=
  mkDataflow (fnObjects st) (nameToFn st) (nodeToUpstreamNodes st) (nodeToDownstreamNodes st)
    (updateBatches st) (value st) m (inProgress st) (errors st) (console st).

Definition set_inProgress (b : bool) (st : Dataflow) : Dataflow :=
  mkDataflow (fnObjects st) (nameToFn st) (nodeToUpstreamNodes st) (nodeToDownstreamNodes st)
    (updateBatches st) (value st) (valueChanged st) b (errors st) (console st).

Definition set_errors (l : list ErrInfo) (st : Dataflow) : Dataflow :=
  mkDataflow (fnObjects st) (nameToFn st) (nodeToUpstreamNodes st) (nodeToDownstreamNodes st)
    (updateBatches st) (value st) (valueChanged st) (inProgress st) l (console st).

(** [console.log] *)
Definition log (entry : LogEntry) : M unit :=
  modify (fun st =>
    mkDataflow (fnObjects st) (nameToFn st) (nodeToUpstreamNodes st) (nodeToDownstreamNodes st)
      (updateBatches st) (value st) (valueChanged st) (inProgress st) (errors st)
      (console st ++ [entry])).

(** ** [register] *)

(** The inner [register(fn, fnName)]. *)
Definition register1 (fn : Value) (fnName : string) : M unit :=
  fun st =>
    match fn with
    | VFunction ref =>
        match fnObjects st !! ref with
        | Some o =>
            if bool_decide (is_Some (nameToFn st !! fnName))
            then (Thrown (JsError ("Function is already registered: " +:+ fnName)), st)
            else
              let paramNames := fn_params o in
              let ds :=
                fold_left
                  (fun m usName =>
                     <[usName := default [] (m !! usName) ++ [fnName]]> m)
                  paramNames (nodeToDownstreamNodes st) in
              (Normal tt,
               set_nodeToDownstreamNodes ds
                 (set_nodeToUpstreamNodes (<[fnName := paramNames]> (nodeToUpstreamNodes st))
                    (set_nameToFn (<[fnName := ref]> (nameToFn st)) st)))
        | None => (Thrown (JsError "Parameter is not a function"), st)
        end
    | _ => (Thrown (JsError "Parameter is not a function"), st)
    end.

(** [fn.name], as the list form of [register] reads it. *)
Definition nameOf (fn : Value) : M string :=
  fun st =>
    match fn with
    | VFunction ref =>
        match fnObjects st !! ref with
        | Some o => (Normal (fn_name o), st)
        | None => (Normal "", st)
        end
    | VUndefined | VNull =>
        (Thrown (JsTypeError "Cannot read properties (reading 'name')"), st)
    | _ => (Normal "undefined", st)
    end.

(** [register(...fns)]: a single object argument is a mapping from names to
    functions, anything else is a list of named functions. *)
Definition register (fns : list Value) : M unit :=
  match fns with
  | [VObject entries] =>
      forEachM (fun '(fnName, fn) _ => register1 fn fnName) entries tt
  | [VNull] => throw (JsTypeError "Cannot convert undefined or null to object")
  | _ =>
      forEachM (fun fn _ => fnName <- nameOf fn ;; register1 fn fnName) fns tt
  end.

(** ** [set] and its helpers *)

(** The two [Set]s of the traversal. *)
Record VisitState : Type := mkVisit {
  visited : gset string;
  visitedInPath : list string
}.

(** [Set.prototype.add] and [delete] on an insertion-ordered set. *)
Definition setAdd (x : string) (l : list string) : list string :=
  if bool_decide (x ∈ l) then l else l ++ [x].

Definition setDelete (x : string) (l : list string) : list string :=
  filter (fun y => y ≠ x) l.

Fixpoint indexOf (x : string) (l : list string) : nat :=
  match l with
  | [] => O
  | y :: rest => if bool_decide (y = x) then O else S (indexOf x rest)
  end.

(** The path that [visitNode] puts in its error message: the part of the
    current path from the first occurrence of [name], closed by [name]. *)
Definition cyclePath (visitedPath : list string) (name : string) : list string :=
  drop (indexOf name visitedPath) visitedPath ++ [name].

Definition cycleError (visitedPath : list string) (name : string) : Exn :=
  JsError ("Cycle detected, consisting of nodes: "
           +:+ String.concat " -> " (cyclePath visitedPath name)).

(** [dataflow.nameToFn.get(name)], resolved to the function object. *)
Definition getFn (st : Dataflow) (name : string) : option (nat * FnObj) :=
  match nameToFn st !! name with
  | Some ref =>
      match fnObjects st !! ref with
      | Some o => Some (ref, o)
      | None => None
      end
  | None => None
  end.

Definition set_numDirtyDeps (n : Z) (o : FnObj) : FnObj :=
  mkFn (fn_name o) (fn_params o) (fn_body o) n.

(** The visitor that [set] passes to the traversal:
    [(fn) => fn.numDirtyDeps++]. *)
Definition countDirtyDep (dsFn : option (nat * FnObj)) : M unit :=
  match dsFn with
  | Some (ref, _) =>
      modify (fun st =>
        set_fnObjects
          (alter (fun o => set_numDirtyDeps (numDirtyDeps o + 1) o) ref (fnObjects st)) st)
  | None => throw (JsTypeError "Cannot read properties of undefined (reading 'numDirtyDeps')")
  end.

(** The body of the loop of [visitNode] over the downstream nodes: call the
    visitor on the function node, then recurse to it. *)
Definition visitDownstream (fnVisitor : option (nat * FnObj) -> M unit)
    (recurse : string -> VisitState -> M VisitState)
    (dsFnName : string) (vs : VisitState) : M VisitState :=
  dsFn <- gets (fun st => getFn st dsFnName) ;;
  fnVisitor dsFn ;;;
  recurse dsFnName vs.

(** Visit a node and its transitive closure. *)
Fixpoint visitNode (fuel : nat) (name : string) (vs : VisitState)
    (fnVisitor : option (nat * FnObj) -> M unit) : M VisitState :=
  match fuel with
  | O => outOfFuel
  | S fuel' =>
      if bool_decide (name ∈ visitedInPath vs)
      then throw (cycleError (visitedInPath vs) name)
      else
        let vs1 := mkVisit (visited vs) (setAdd name (visitedInPath vs)) in
        vs3 <- (if bool_decide (name ∈ visited vs1) then ret vs1
                else
                  let vs2 := mkVisit ({[name]} ∪ visited vs1) (visitedInPath vs1) in
                  dsFnNames <- gets (fun st => nodeToDownstreamNodes st !! name) ;;
                  match dsFnNames with
                  | Some ds =>
                      forEachM
                        (visitDownstream fnVisitor
                           (fun dsFnName vs' => visitNode fuel' dsFnName vs' fnVisitor))
                        ds vs2
                  | None => ret vs2
                  end) ;;
        ret (mkVisit (visited vs3) (setDelete name (visitedInPath vs3)))
  end.

(** Visit the downstream transitive closure starting from a list of param
    names. *)
Definition visitReachableFnsFromParams (fuel : nat) (paramNames : list string)
    (fnVisitor : option (nat * FnObj) -> M unit) : M unit :=
  forEachM (fun paramName vs => visitNode fuel paramName vs fnVisitor)
    paramNames (mkVisit ∅ []) ;;;
  ret tt.

(** The test [typeof value === "object" && typeof value.then === "function"]
    and the [throw] it guards. *)
Definition promiseGuard (name : string) (v : Value) : M unit :=
  match typeof v with
  | TObject =>
      match getProp v "then" with
      | inl e => throw e
      | inr t =>
          match typeof t with
          | TFunction => throw (JsError ("Value of '" +:+ name +:+ "' cannot be a Promise"))
          | _ => ret tt
          end
      end
  | _ => ret tt
  end.

(** [for (const fn of dataflow.nameToFn.values()) fn.numDirtyDeps = 0] *)
Definition resetDirtyDeps : M unit :=
  modify (fun st =>
    set_fnObjects
      (map_fold (fun _ ref h => alter (set_numDirtyDeps 0) ref h) (fnObjects st) (nameToFn st))
      st).

(** The callback of [dsFnNames.forEach] in [setNodeValue]:
    [if (--dsFn.numDirtyDeps == 0) dirtyNodeNamesOut.add(dsFnName)]. *)
Definition decrementDirtyDep (dsFnName : string) (dirtyNodeNamesOut : list string)
    : M (list string) :=
  dsFn <- gets (fun st => getFn st dsFnName) ;;
  match dsFn with
  | Some (ref, o) =>
      let n := numDirtyDeps o - 1 in
      modify (fun st =>
        set_fnObjects (alter (set_numDirtyDeps n) ref (fnObjects st)) st) ;;;
      ret (if Z.eqb n 0 then setAdd dsFnName dirtyNodeNamesOut else dirtyNodeNamesOut)
  | None =>
      throw (JsTypeError "Cannot read properties of undefined (reading 'numDirtyDeps')")
  end.

Section Engine.
Context `{IsEqual}.

(** Update the value of a node, and propagate any change downstream. *)
Definition setNodeValue (name : string) (v : Value) (dirtyNodeNamesOut : list string)
    : M (list string) :=
  oldValue <- gets (fun st => default VUndefined (value st !! name)) ;;
  let changed := negb (isEqual oldValue v) in
  modify (fun st => set_valueChanged (<[name := changed]> (valueChanged st)) st) ;;;
  (if changed
   then log (LogSetting name v) ;;;
        modify (fun st => set_value (<[name := v]> (value st)) st)
   else ret tt) ;;;
  dsFnNames <- gets (fun st => nodeToDownstreamNodes st !! name) ;;
  match dsFnNames with
  | Some ds => forEachM decrementDirtyDep ds dirtyNodeNamesOut
  | None => ret dirtyNodeNamesOut
  end.

(** The loop that sets the values of the nodes named in the batch and
    creates the initial dirty set. *)
Definition setBatchValues (updateBatch : Batch) (dirtyNodeNames : list string)
    : M (list string) :=
  forEachM
    (fun '(name, v) dirty => promiseGuard name v ;;; setNodeValue name v dirty)
    updateBatch dirtyNodeNames.

(** One entry of the parallel arrays [fnNames], [fnArgs] and [promises]. *)
Definition Launched : Type := (string * list Value * Settlement)%type.

(** [fn(...args)]: the producer runs, its nested [dataflow.set] calls reach
    the engine, and the call throws or returns its promise. *)
Definition callFn (nested : Batch -> M unit) (o : FnObj) (name : string)
    (args : list Value) : M Settlement :=
  let run := fn_body o args in
  forEachM (fun b _ => nested b) (run_sets run) tt ;;;
  match run_result run with
  | Throws r => throw (JsThrown r)
  | Returns p => log (LogCalling name args) ;;; ret p
  end.

Definition someArgChanged (st : Dataflow) (paramNames : list string) : bool :=
  existsb (fun paramName => default false (valueChanged st !! paramName)) paramNames.

Definition argsOf (st : Dataflow) (paramNames : list string) : list Value :=
  map (fun paramName => default VUndefined (value st !! paramName)) paramNames.

(** The body of the loop over the dirty nodes: gather the cached upstream
    values, and call the function only if some upstream value changed. *)
Definition launch (nested : Batch -> M unit) (name : string) (acc : list Launched)
    : M (list Launched) :=
  fn <- gets (fun st => getFn st name) ;;
  paramNames <- gets (fun st => nodeToUpstreamNodes st !! name) ;;
  match paramNames with
  | None => throw (JsTypeError "paramNames is not iterable")
  | Some paramNames =>
      changed <- gets (fun st => someArgChanged st paramNames) ;;
      args <- gets (fun st => argsOf st paramNames) ;;
      match fn with
      | None => throw (JsTypeError "Cannot read properties of undefined (reading 'name')")
      | Some (_, o) =>
          p <- (if changed then callFn nested o name args
                else cached <- gets (fun st => default VUndefined (value st !! name)) ;;
                     ret (Fulfilled cached)) ;;
          ret (acc ++ [(fn_name o, args, p)])
      end
  end.

Definition neverSettles (l : Launched) : bool :=
  match l with
  | (_, _, NeverSettles) => true
  | _ => false
  end.

(** The body of the loop over the settled promises. *)
Definition settle (l : Launched) (dirtyNodeNames : list string) : M (list string) :=
  match l with
  | (fnName, _, Fulfilled v) => setNodeValue fnName v dirtyNodeNames
  | (fnName, fnArgs, Rejected r) =>
      let errInfo := mkErrInfo fnName fnArgs r in
      log (LogError errInfo) ;;;
      modify (fun st => set_errors (errors st ++ [errInfo]) st) ;;;
      ret dirtyNodeNames
  | (_, _, NeverSettles) => ret dirtyNodeNames
  end.

(** One round of the wavefront: launch every dirty node, clear the dirty
    set, wait for all promises, then cache the results. *)
Definition round (nested : Batch -> M unit) (dirtyNodeNames : list string)
    : M (list string) :=
  launched <- forEachM (launch nested) dirtyNodeNames [] ;;
  if existsb neverSettles launched then stall
  else forEachM settle launched [].

(** [while (dirtyNodeNames.size > 0) { ... }] *)
Fixpoint wavefront (fuel : nat) (nested : Batch -> M unit) (dirtyNodeNames : list string)
    : M unit :=
  match fuel with
  | O => outOfFuel
  | S fuel' =>
      match dirtyNodeNames with
      | [] => ret tt
      | _ => dirty' <- round nested dirtyNodeNames ;; wavefront fuel' nested dirty'
      end
  end.

(** The body of the loop over the queue, for the batch just dequeued. *)
Definition processBatch (fuel : nat) (nested : Batch -> M unit)
    (updateBatch : option Batch) : M unit :=
  resetDirtyDeps ;;;
  match updateBatch with
  | None => throw (JsTypeError "Cannot convert undefined or null to object")
  | Some updateBatch =>
      visitReachableFnsFromParams fuel (map fst updateBatch) countDirtyDep ;;;
      modify (set_valueChanged ∅) ;;;
      dirtyNodeNames <- setBatchValues updateBatch [] ;;
      wavefront fuel nested dirtyNodeNames ;;;
      empty <- gets (fun st => isEmpty (updateBatches st)) ;;
      if empty then ret tt else log LogNextBatch
  end.

(** [while (!dataflow.updateBatches.isEmpty()) { ... }] *)
Fixpoint drain (fuel : nat) (nested : Batch -> M unit) : M unit :=
  match fuel with
  | O => outOfFuel
  | S fuel' =>
      empty <- gets (fun st => isEmpty (updateBatches st)) ;;
      if empty then ret tt
      else
        updateBatch <- (fun st =>
                          match dequeue (updateBatches st) with
                          | inl e => (Thrown e, st)
                          | inr (b, q) => (Normal b, set_updateBatches q st)
                          end) ;;
        processBatch fuel' nested updateBatch ;;;
        drain fuel' nested
  end.

(** [dataflow.set(nameToValuesObj)].  The promise it returns is fulfilled
    on [Normal], rejected on [Thrown] and stays pending on [Stalled]. *)
Fixpoint set (fuel : nat) (nameToValuesObj : Batch) : M unit :=
  match fuel with
  | O => outOfFuel
  | S fuel' =>
      modify (fun st => set_updateBatches (enqueue nameToValuesObj (updateBatches st)) st) ;;;
      busy <- gets inProgress ;;
      if busy then ret tt
      else
        modify (set_inProgress true) ;;;
        modify (set_errors []) ;;;
        drain fuel' (set fuel') ;;;
        modify (set_inProgress false) ;;;
        log LogEnded
  end.

(** [dataflow.get(name)] *)
Definition get (fuel : nat) (name : string) : M Value :=
  set fuel [] ;;;                                   (* Wait for dataflow to end *)
  gets (fun st => default VUndefined (value st !! name)).

End Engine.

(** ** Example graphs *)

Definition returning (v : Value) : Run := mkRun [] (Returns (Fulfilled v)).

Definition num1 (f : Z -> Z) : Producer :=
  fun args =>
    match args with
    | [VNumber x] => returning (VNumber (f x))
    | _ => returning VUndefined
    end.

Definition num2 (f : Z -> Z -> Z) : Producer :=
  fun args =>
    match args with
    | [VNumber x; VNumber y] => returning (VNumber (f x y))
    | _ => returning VUndefined
    end.

(** The graph of the README:
    [a: (x, y) => x + y, b: (a, c) => a * c, c: (z) => z * 2, d: (b) => b * b]. *)
Definition readmeFns : gmap nat FnObj :=
  list_to_map
    [(0%nat, mkFn "a" ["x"; "y"] (num2 Z.add) 0);
     (1%nat, mkFn "b" ["a"; "c"] (num2 Z.mul) 0);
     (2%nat, mkFn "c" ["z"] (num1 (fun z => z * 2)) 0);
     (3%nat, mkFn "d" ["b"] (num1 (fun b => b * b)) 0)].

Definition readmeGraph : Dataflow :=
  snd (register
         [VObject [("a", VFunction 0); ("b", VFunction 1);
                   ("c", VFunction 2); ("d", VFunction 3)]]
         (newDataflow readmeFns)).

(** The README graph after [await dataflow.set({x: 1, y: 2, z: 3})]. *)
Definition readmeSettled : Dataflow :=
  snd (@set deepEqual 8 [("x", VNumber 1); ("y", VNumber 2); ("z", VNumber 3)] readmeGraph).

(** [a: (b) => b, b: (a) => a]: a cycle of two nodes. *)
Definition cycleFns : gmap nat FnObj :=
  list_to_map
    [(0%nat, mkFn "a" ["b"] (num1 (fun b => b)) 0);
     (1%nat, mkFn "b" ["a"] (num1 (fun a => a)) 0)].

Definition cycleGraph : Dataflow :=
  snd (register [VObject [("a", VFunction 0); ("b", VFunction 1)]]
         (newDataflow cycleFns)).

(** [e: (x) => { throw "boom" }] (not [async]), its dependent [d: (e) => e]
    and a sibling [s: (x) => x + 1]. *)
Definition throwingFns : gmap nat FnObj :=
  list_to_map
    [(0%nat, mkFn "e" ["x"] (fun _ => mkRun [] (Throws (VString "boom"))) 0);
     (1%nat, mkFn "d" ["e"] (num1 (fun e => e)) 0);
     (2%nat, mkFn "s" ["x"] (num1 (fun x => x + 1)) 0)].

Definition throwingGraph : Dataflow :=
  snd (register [VObject [("e", VFunction 0); ("d", VFunction 1); ("s", VFunction 2)]]
         (newDataflow throwingFns)).

(** [a: (x) => x + 1, e: async (x) => { throw "boom" }, b: (a, e) => a + e]:
    [b] waits for [a] and for the failing [e]. *)
Definition rejectingFns : gmap nat FnObj :=
  list_to_map
    [(0%nat, mkFn "a" ["x"] (num1 (fun x => x + 1)) 0);
     (1%nat, mkFn "e" ["x"] (fun _ => mkRun [] (Returns (Rejected (VString "boom")))) 0);
     (2%nat, mkFn "b" ["a"; "e"] (num2 Z.add) 0)].

Definition rejectingGraph : Dataflow :=
  snd (register [VObject [("a", VFunction 0); ("e", VFunction 1); ("b", VFunction 2)]]
         (newDataflow rejectingFns)).

(** A pending Promise: an object whose [then] is a function. *)
Definition aPromise : Value := VObject [("then", VFunction 100)].

(** [p: (x) => { dataflow.set({y: x}); return x; }, q: (y) => y]: a producer
    that pushes a value into the graph. *)
Definition nestedFns : gmap nat FnObj :=
  list_to_map
    [(0%nat, mkFn "p" ["x"]
               (fun args =>
                  match args with
                  | [x] => mkRun [[("y", x)]] (Returns (Fulfilled x))
                  | _ => returning VUndefined
                  end) 0);
     (1%nat, mkFn "q" ["y"] (num1 (fun y => y)) 0)].

Definition nestedGraph : Dataflow :=
  snd (register [VObject [("p", VFunction 0); ("q", VFunction 1)]] (newDataflow nestedFns)).

(** ** Vocabulary of the statements *)

(** [m] keeps the state inside [P], however it completes. *)
Definition preserves {A : Type} (P : Dataflow -> Prop) (m : M A) : Prop :=
  forall st r st', P st -> m st = (r, st') -> P st'.

(** An object that the Promise guard of [set] rejects. *)
Definition isThenable (v : Value) : bool :=
  match v with
  | VObject props =>
      match typeof (default VUndefined (assoc "then" props)) with
      | TFunction => true
      | _ => false
      end
  | _ => false
  end.

Definition promiseError (name : string) : Exn :=
  JsError ("Value of '" +:+ name +:+ "' cannot be a Promise").

Definition nullThenError : Exn :=
  JsTypeError "Cannot read properties of null (reading 'then')".

(** The batches waiting in the queue, oldest first. *)
Definition pending (queue : Queue) : list (option Batch) :=
  map (fun i => elts queue !! i) (seq (headIdx queue) (tailIdx queue - headIdx queue)).

(** A completion that is not normal, at another result type. *)
Definition abort {A B : Type} (r : Completion A) : Completion B :=
  match r with
  | Normal _ => OutOfFuel
  | Thrown e => Thrown e
  | Stalled => Stalled
  | OutOfFuel => OutOfFuel
  end.

Definition isNormal {A : Type} (r : Completion A) : bool :=
  match r with
  | Normal _ => true
  | _ => false
  end.

(** What registration fixes in a function object. *)
Definition fnStatic (o : FnObj) : string * list string * Producer :=
  (fn_name o, fn_params o, fn_body o).

(** Both states hold the same registered graph. *)
Definition sameGraph (st st' : Dataflow) : Prop :=
  nameToFn st' = nameToFn st
  /\ nodeToUpstreamNodes st' = nodeToUpstreamNodes st
  /\ nodeToDownstreamNodes st' = nodeToDownstreamNodes st
  /\ forall r, fnStatic <$> (fnObjects st' !! r) = fnStatic <$> (fnObjects st !! r).

(** The writes of a batch's own bookkeeping: counters, cached values,
    changed flags, error list and console may differ; the graph, the queue
    and the [inProgress] flag may not. *)
Definition bookkeeping (st st' : Dataflow) : Prop :=
  sameGraph st st'
  /\ updateBatches st' = updateBatches st
  /\ inProgress st' = inProgress st.

Definition closed (P : Dataflow -> Prop) : Prop :=
  forall st st', bookkeeping st st' -> P st -> P st'.

(** The head of a queue never passes its tail. *)
Definition queueOk (queue : Queue) : Prop := (headIdx queue <= tailIdx queue)%nat.

(** [queue'] is [queue] with further batches enqueued and none dequeued. *)
Definition queued (queue queue' : Queue) : Prop :=
  headIdx queue' = headIdx queue
  /\ (tailIdx queue <= tailIdx queue')%nat
  /\ forall i, (i < tailIdx queue)%nat -> elts queue' !! i = elts queue !! i.


Definition enqueueAll (bs : list Batch) (queue : Queue) : Queue :=
  fold_left (fun q b => enqueue b q) bs queue.

(** The queue after its oldest batch has been taken. *)
Definition advance (queue : Queue) : Queue :=
  mkQueue (S (headIdx queue)) (tailIdx queue) (elts queue).

(** The state in which a [set] call that finds the engine idle starts to
    drain the queue. *)
Definition sessionStart (b : Batch) (st : Dataflow) : Dataflow :=
  set_errors [] (set_inProgress true (set_updateBatches (enqueue b (updateBatches st)) st)).









(** [l] is a path of the graph: each name is followed by one of its
    downstream nodes. *)
Fixpoint chain (g : gmap string (list string)) (l : list string) : Prop :=
  match l with
  | [] => True
  | u :: rest =>
      match rest with
      | [] => True
      | v :: _ => (exists ds, g !! u = Some ds /\ v ∈ ds) /\ chain g rest
      end
  end.

(** The error names a cycle of the graph: a path of at least two names that
    ends where it starts. *)
Definition namesCycle (g : gmap string (list string)) (e : Exn) : Prop :=
  exists c,
    e = JsError ("Cycle detected, consisting of nodes: " +:+ String.concat " -> " c)
    /\ (2 <= length c)%nat
    /\ head c = last c
    /\ chain g c.

(** Every downstream name is a registered function. *)
Definition resolved (st : Dataflow) : Prop :=
  map_Forall (fun _ ds => Forall (fun d => is_Some (getFn st d)) ds)
    (nodeToDownstreamNodes st).

(** What a visit guarantees when it starts on the path [p]: the graph is
    left as it was; the path is [p] again when the visit completes; the
    error names a cycle when it throws. *)
Definition visitPost (g : gmap string (list string)) (p : list string)
    (st : Dataflow) (r : Completion VisitState) (st' : Dataflow) : Prop :=
  sameGraph st st'
  /\ match r with
     | Normal vs' => visitedInPath vs' = p
     | Thrown e => namesCycle g e
     | _ => True
     end.

(** [st] is [st0] with other counters. *)
Definition countersOnly (st0 st : Dataflow) : Prop :=
  st = set_fnObjects (fnObjects st) st0.

(** The state in which the session started by [set(b)] on the engine [s]
    begins to process [b]: the batch has been enqueued and dequeued again. *)
Definition batchStart (b : Batch) (s : Dataflow) : Dataflow :=
  set_updateBatches (advance (enqueue b (updateBatches s))) (sessionStart b s).


(** Every registered function carries the name it is registered under. *)
Definition named (st : Dataflow) : Prop :=
  map_Forall (fun n ref => forall o, fnObjects st !! ref = Some o -> fn_name o = n)
    (nameToFn st).









(** * Properties *)

(** ** The engine monad *)

Lemma bind_Normal {A B} (m : M A) (k : A -> M B) st a st1 :
  m st = (Normal a, st1) -> bind m k st = k a st1.
Proof. intros E. unfold bind. now rewrite E. Qed.

Lemma bind_abort {A B} (m : M A) (k : A -> M B) st r st1 :
  m st = (r, st1) -> isNormal r = false -> bind m k st = (abort r, st1).
Proof. intros E N. unfold bind. rewrite E. now destruct r. Qed.

Lemma bind_inv {A B} (m : M A) (k : A -> M B) st r st' :
  bind m k st = (r, st') ->
  (exists a st1, m st = (Normal a, st1) /\ k a st1 = (r, st'))
  \/ (exists r0, m st = (r0, st') /\ isNormal r0 = false /\ r = abort r0).
Proof.
  unfold bind. destruct (m st) as [r0 st1] eqn:E. destruct r0; intros E'.
  - left. eauto.
  - right. inversion E'; subst. now exists (Thrown e).
  - right. inversion E'; subst. now exists Stalled.
  - right. inversion E'; subst. now exists OutOfFuel.
Qed.

Lemma bind_assoc {A B C} (m : M A) (k : A -> M B) (k' : B -> M C) st :
  bind (bind m k) k' st = bind m (fun a => bind (k a) k') st.
Proof. unfold bind. destruct (m st) as [[] ?]; reflexivity. Qed.

Lemma bind_ext {A B} (m : M A) (k1 k2 : A -> M B) st :
  (forall a st1, m st = (Normal a, st1) -> k1 a st1 = k2 a st1) ->
  bind m k1 st = bind m k2 st.
Proof. intros Hk. unfold bind. destruct (m st) as [[] ?]; auto. Qed.

Lemma forEachM_app {A S} (body : A -> S -> M S) l1 l2 acc st :
  forEachM body (l1 ++ l2) acc st = bind (forEachM body l1 acc) (forEachM body l2) st.
Proof.
  revert acc st. induction l1 as [|x l1 IH]; intros acc st; simpl.
  - reflexivity.
  - rewrite bind_assoc. unfold bind at 1 2.
    destruct (body x acc st) as [[] ?]; auto.
Qed.

Lemma preserves_ret {A} P (a : A) : preserves P (ret a).
Proof. intros st r st' HP E. inversion E; subst; assumption. Qed.

Lemma preserves_throw {A} P e : preserves P (@throw A e).
Proof. intros st r st' HP E. inversion E; subst; assumption. Qed.

Lemma preserves_stall {A} P : preserves P (@stall A).
Proof. intros st r st' HP E. inversion E; subst; assumption. Qed.

Lemma preserves_outOfFuel {A} P : preserves P (@outOfFuel A).
Proof. intros st r st' HP E. inversion E; subst; assumption. Qed.

Lemma preserves_gets {A} P (f : Dataflow -> A) : preserves P (gets f).
Proof. intros st r st' HP E. inversion E; subst; assumption. Qed.

Lemma preserves_modify P f :
  (forall st, P st -> P (f st)) -> preserves P (modify f).
Proof. intros Hf st r st' HP E. inversion E; subst; auto. Qed.

Lemma preserves_bind {A B} P (m : M A) (k : A -> M B) :
  preserves P m -> (forall a, preserves P (k a)) -> preserves P (bind m k).
Proof.
  intros Hm Hk st r st' HP E.
  apply bind_inv in E as [(a & st1 & E1 & E2) | (r0 & E1 & _ & _)].
  - eapply Hk; [|exact E2]. eapply Hm; eauto.
  - eapply Hm; eauto.
Qed.

Lemma preserves_forEachM {A S} P (body : A -> S -> M S) l acc :
  (forall x acc', preserves P (body x acc')) -> preserves P (forEachM body l acc).
Proof.
  intros Hb. revert acc. induction l as [|x l IH]; intros acc; simpl.
  - apply preserves_ret.
  - apply preserves_bind; auto.
Qed.

Lemma preserves_log P entry :
  (forall st, P st ->
     P (mkDataflow (fnObjects st) (nameToFn st) (nodeToUpstreamNodes st)
          (nodeToDownstreamNodes st) (updateBatches st) (value st) (valueChanged st)
          (inProgress st) (errors st) (console st ++ [entry]))) ->
  preserves P (log entry).
Proof. intros Hf. apply preserves_modify. exact Hf. Qed.

(** Decompose a computation into its primitive steps. *)
Ltac pres_step :=
  match goal with
  | |- preserves _ (bind _ _) => apply preserves_bind; [|intros ?]
  | |- preserves _ (ret _) => apply preserves_ret
  | |- preserves _ (throw _) => apply preserves_throw
  | |- preserves _ stall => apply preserves_stall
  | |- preserves _ outOfFuel => apply preserves_outOfFuel
  | |- preserves _ (gets _) => apply preserves_gets
  | |- preserves _ (forEachM _ _ _) => apply preserves_forEachM; intros ? ?
  | |- preserves _ (match ?x with _ => _ end) => destruct x
  | |- preserves _ (let _ := _ in _) => cbv zeta
  end.

Ltac pres := repeat pres_step.

(** ** The Promise guard and the value-setting loop *)

Lemma promiseGuard_null name st :
  promiseGuard name VNull st = (Thrown nullThenError, st).
Proof. reflexivity. Qed.

Lemma promiseGuard_thenable name v st :
  isThenable v = true -> promiseGuard name v st = (Thrown (promiseError name), st).
Proof.
  destruct v; try discriminate. unfold isThenable, promiseGuard. simpl.
  destruct (typeof (default VUndefined (assoc "then" props))); try discriminate.
  reflexivity.
Qed.

Lemma promiseGuard_object name props st :
  promiseGuard name (VObject props) st =
  if isThenable (VObject props) then (Thrown (promiseError name), st) else (Normal tt, st).
Proof.
  unfold isThenable, promiseGuard. simpl.
  destruct (typeof (default VUndefined (assoc "then" props))); reflexivity.
Qed.

Lemma promiseGuard_Normal name v st r st' :
  promiseGuard name v st = (r, st') -> isNormal r = true -> v <> VNull /\ isThenable v = false.
Proof.
  destruct v; try (intros _ _; split; [discriminate | reflexivity]).
  - rewrite promiseGuard_null. intros E. inversion E; subst. discriminate.
  - rewrite promiseGuard_object. destruct (isThenable (VObject props)).
    + intros E. inversion E; subst. discriminate.
    + intros _ _. split; [discriminate | reflexivity].
Qed.

Lemma promiseGuard_state name v st r st' :
  promiseGuard name v st = (r, st') -> st' = st.
Proof.
  unfold promiseGuard. destruct (typeof v); try (intros E; inversion E; reflexivity).
  destruct (getProp v "then"); [intros E; inversion E; reflexivity|].
  destruct (typeof v0); intros E; inversion E; reflexivity.
Qed.

(** The counters are the only thing the [forEach] callback writes. *)
Lemma decrementDirtyDep_preserves (P : Dataflow -> Prop) dsFnName dirty :
  (forall st h, P st -> P (set_fnObjects h st)) ->
  preserves P (decrementDirtyDep dsFnName dirty).
Proof.
  intros Hh. unfold decrementDirtyDep. pres.
  apply preserves_modify. intros st HP. now apply Hh.
Qed.

Section ValueSetting.
Context `{IsEqual}.

(** [setNodeValue] writes nothing but [value] into the cache. *)
Lemma setNodeValue_preserves_value (P : gmap string Value -> Prop) name v dirty :
  (forall m, P m -> P (<[name := v]> m)) ->
  preserves (fun st => P (value st)) (setNodeValue name v dirty).
Proof.
  intros Hins. unfold setNodeValue. pres;
    try (apply preserves_modify; intros st HP; simpl; auto).
  apply decrementDirtyDep_preserves. auto.
Qed.

Lemma setBatchValues_thenable pre name v post dirty st :
  isThenable v = true ->
  setBatchValues (pre ++ (name, v) :: post) dirty st =
  (setBatchValues pre dirty ;;; throw (promiseError name)) st.
Proof.
  intros Hv. unfold setBatchValues. rewrite forEachM_app.
  apply bind_ext. intros d st1 _. simpl.
  rewrite bind_assoc.
  rewrite (bind_abort _ _ _ _ _ (promiseGuard_thenable name v st1 Hv) eq_refl).
  reflexivity.
Qed.

Lemma setBatchValues_null pre name post dirty st :
  setBatchValues (pre ++ (name, VNull) :: post) dirty st =
  (setBatchValues pre dirty ;;; throw nullThenError) st.
Proof.
  unfold setBatchValues. rewrite forEachM_app.
  apply bind_ext. intros d st1 _. reflexivity.
Qed.

Lemma setBatchValues_no_null batch dirty st0 :
  preserves
    (fun st => forall k, value st !! k = Some VNull -> value st0 !! k = Some VNull)
    (setBatchValues batch dirty).
Proof.
  unfold setBatchValues. apply preserves_forEachM. intros [name v] acc.
  intros st r st' HP E.
  apply bind_inv in E as [(a & st1 & E1 & E2) | (r0 & E1 & _ & _)].
  - pose proof (promiseGuard_state _ _ _ _ _ E1) as ->.
    apply promiseGuard_Normal in E1 as [Hnull _]; [|reflexivity].
    revert E2. revert HP.
    apply (setNodeValue_preserves_value
             (fun m => forall k, m !! k = Some VNull -> value st0 !! k = Some VNull)).
    intros m Hm k. destruct (decide (name = k)) as [->|Hne].
    + rewrite lookup_insert_eq. intros [= ->]. contradiction.
    + rewrite lookup_insert_ne by assumption. apply Hm.
  - now rewrite (promiseGuard_state _ _ _ _ _ E1).
Qed.

End ValueSetting.

(** ** What the pieces of [set] can write *)

Lemma sameGraph_refl st : sameGraph st st.
Proof. repeat split. Qed.

Lemma sameGraph_trans st1 st2 st3 :
  sameGraph st1 st2 -> sameGraph st2 st3 -> sameGraph st1 st3.
Proof.
  intros (A1 & B1 & C1 & D1) (A2 & B2 & C2 & D2).
  repeat split; try congruence; try (intros r; now rewrite D2).
Qed.

Lemma bookkeeping_refl st : bookkeeping st st.
Proof. split; [apply sameGraph_refl | split; reflexivity]. Qed.



Lemma alter_static (f : FnObj -> FnObj) ref (h : gmap nat FnObj) r :
  (forall o, fnStatic (f o) = fnStatic o) ->
  fnStatic <$> (alter f ref h !! r) = fnStatic <$> (h !! r).
Proof.
  intros Hf. destruct (decide (ref = r)) as [->|Hne].
  - rewrite lookup_alter_eq. destruct (h !! r) as [o|]; simpl; [now rewrite Hf | reflexivity].
  - now rewrite lookup_alter_ne.
Qed.

Lemma bookkeeping_counters st f ref :
  (forall o, fnStatic (f o) = fnStatic o) ->
  bookkeeping st (set_fnObjects (alter f ref (fnObjects st)) st).
Proof.
  intros Hf. repeat split; simpl. intros r. now apply alter_static.
Qed.

Lemma reset_static (names : gmap string nat) (h : gmap nat FnObj) r :
  fnStatic <$> (map_fold (fun _ ref h' => alter (set_numDirtyDeps 0) ref h') h names !! r)
  = fnStatic <$> (h !! r).
Proof.
  apply (map_fold_weak_ind
           (fun (h' : gmap nat FnObj) (_ : gmap string nat) =>
              fnStatic <$> (h' !! r) = fnStatic <$> (h !! r))).
  - reflexivity.
  - intros k ref m h' _ IH. rewrite alter_static; [exact IH | reflexivity].
Qed.

Lemma bookkeeping_reset st :
  bookkeeping st
    (set_fnObjects
       (map_fold (fun _ ref h => alter (set_numDirtyDeps 0) ref h) (fnObjects st) (nameToFn st))
       st).
Proof. repeat split; simpl. intros r. apply reset_static. Qed.

Section Frames.
Context `{IsEqual}.
Variable P : Dataflow -> Prop.
Hypothesis P_closed : closed P.

Lemma closed_modify f : (forall st, bookkeeping st (f st)) -> preserves P (modify f).
Proof. intros Hf. apply preserves_modify. intros st HP. eapply P_closed; eauto. Qed.

Lemma closed_log entry : preserves P (log entry).
Proof. apply closed_modify. intros st. repeat split. Qed.

Lemma countDirtyDep_closed dsFn : preserves P (countDirtyDep dsFn).
Proof.
  destruct dsFn as [[ref o]|]; simpl; [|apply preserves_throw].
  apply closed_modify. intros st. now apply bookkeeping_counters.
Qed.

Lemma resetDirtyDeps_closed : preserves P resetDirtyDeps.
Proof. apply closed_modify. intros st. apply bookkeeping_reset. Qed.

Lemma visitNode_closed fuel name vs fnVisitor :
  (forall dsFn, preserves P (fnVisitor dsFn)) ->
  preserves P (visitNode fuel name vs fnVisitor).
Proof.
  intros Hv. revert name vs. induction fuel as [|fuel IH]; intros name vs; simpl.
  - apply preserves_outOfFuel.
  - pres; auto. unfold visitDownstream. pres; auto.
Qed.

Lemma visitReachableFnsFromParams_closed fuel paramNames fnVisitor :
  (forall dsFn, preserves P (fnVisitor dsFn)) ->
  preserves P (visitReachableFnsFromParams fuel paramNames fnVisitor).
Proof.
  intros Hv. unfold visitReachableFnsFromParams. pres. now apply visitNode_closed.
Qed.

Lemma promiseGuard_closed name v : preserves P (promiseGuard name v).
Proof. intros st r st' HP E. now rewrite (promiseGuard_state _ _ _ _ _ E). Qed.

Lemma decrementDirtyDep_closed dsFnName dirty :
  preserves P (decrementDirtyDep dsFnName dirty).
Proof.
  unfold decrementDirtyDep. pres.
  apply closed_modify. intros st. now apply bookkeeping_counters.
Qed.

Lemma setNodeValue_closed name v dirty : preserves P (setNodeValue name v dirty).
Proof.
  unfold setNodeValue. pres;
    try (apply closed_log);
    try (apply closed_modify; intros st; repeat split; fail).
  apply decrementDirtyDep_closed.
Qed.

Lemma setBatchValues_closed batch dirty : preserves P (setBatchValues batch dirty).
Proof.
  unfold setBatchValues. apply preserves_forEachM. intros [name v] acc.
  apply preserves_bind; [apply promiseGuard_closed | intros _; apply setNodeValue_closed].
Qed.

Variable nested : Batch -> M unit.
Hypothesis nested_preserves : forall b, preserves P (nested b).

Lemma callFn_closed o name args : preserves P (callFn nested o name args).
Proof. unfold callFn. pres; auto using closed_log. Qed.

Lemma launch_closed name acc : preserves P (launch nested name acc).
Proof. unfold launch. pres; auto using callFn_closed. Qed.

Lemma settle_closed l dirty : preserves P (settle l dirty).
Proof.
  destruct l as [[fnName fnArgs] []]; simpl.
  - apply setNodeValue_closed.
  - pres; [apply closed_log|]. apply closed_modify. intros st. repeat split.
  - apply preserves_ret.
Qed.

Lemma round_closed dirty : preserves P (round nested dirty).
Proof.
  unfold round. apply preserves_bind.
  - apply preserves_forEachM. intros. apply launch_closed.
  - intros launched. destruct (existsb neverSettles launched).
    + apply preserves_stall.
    + apply preserves_forEachM. intros. apply settle_closed.
Qed.

Lemma wavefront_closed fuel dirty : preserves P (wavefront fuel nested dirty).
Proof.
  revert dirty. induction fuel as [|fuel IH]; intros dirty; simpl.
  - apply preserves_outOfFuel.
  - destruct dirty; [apply preserves_ret|].
    apply preserves_bind; [apply round_closed | intros; apply IH].
Qed.

Lemma processBatch_closed fuel updateBatch :
  preserves P (processBatch fuel nested updateBatch).
Proof.
  unfold processBatch. apply preserves_bind; [apply resetDirtyDeps_closed | intros _].
  destruct updateBatch as [b|]; [|apply preserves_throw].
  apply preserves_bind.
  { apply visitReachableFnsFromParams_closed. apply countDirtyDep_closed. }
  intros _. apply preserves_bind.
  { apply closed_modify. intros st. repeat split. }
  intros _. apply preserves_bind; [apply setBatchValues_closed | intros dirty].
  apply preserves_bind; [apply wavefront_closed | intros _].
  apply preserves_bind; [apply preserves_gets | intros e].
  destruct e; [apply preserves_ret | apply closed_log].
Qed.

End Frames.

(** ** The queue *)


Lemma dequeue_pending queue :
  queueOk queue -> isEmpty queue = false ->
  exists ob queue',
    dequeue queue = inr (ob, queue')
    /\ pending queue = ob :: pending queue'
    /\ queueOk queue'
    /\ headIdx queue' = S (headIdx queue)
    /\ tailIdx queue' = tailIdx queue
    /\ elts queue' = elts queue.
Proof.
  unfold queueOk, isEmpty, dequeue, pending. destruct queue as [h t e]; simpl.
  intros Hle Hne. apply Nat.eqb_neq in Hne.
  destruct (Nat.eqb h t) eqn:E; [apply Nat.eqb_eq in E; lia|].
  eexists _, _. split; [reflexivity|]. simpl.
  replace (t - h)%nat with (S (t - S h)) by lia. simpl.
  repeat split; lia.
Qed.






Lemma queued_queueOk queue queue' : queueOk queue -> queued queue queue' -> queueOk queue'.
Proof. unfold queueOk. intros Hle (Hh & Ht & _). lia. Qed.




Section Session.
Context `{IsEqual}.

(** A [set] call in an active session enqueues its batch and returns. *)
Lemma set_busy fuel b st :
  inProgress st = true ->
  set (S fuel) b st = (Normal tt, set_updateBatches (enqueue b (updateBatches st)) st).
Proof.
  intros Hb. simpl. unfold bind, modify, gets. simpl. now rewrite Hb.
Qed.



Lemma set_busy_all fuel bs st :
  inProgress st = true ->
  forEachM (fun b _ => set (S fuel) b) bs tt st
  = (Normal tt, set_updateBatches (enqueueAll bs (updateBatches st)) st).
Proof.
  revert st. induction bs as [|b bs IH]; intros st Hb; simpl.
  - unfold ret. now destruct st.
  - erewrite bind_Normal; [|now apply set_busy]. rewrite IH by assumption. reflexivity.
Qed.

End Session.

(** ** The session loop *)

Section SessionLoop.
Context `{IsEqual}.


(** The loop takes the oldest pending batch, processes it, and only then
    looks at the queue again. *)
Lemma drain_step fuel nested st :
  queueOk (updateBatches st) ->
  isEmpty (updateBatches st) = false ->
  drain (S fuel) nested st
  = (processBatch fuel nested (elts (updateBatches st) !! headIdx (updateBatches st)) ;;;
     drain fuel nested) (set_updateBatches (advance (updateBatches st)) st).
Proof.
  intros Hok E. simpl. unfold bind at 1, gets. rewrite E.
  destruct (dequeue_pending _ Hok E) as (ob & q' & Hd & _ & _ & Hh & Ht & He).
  unfold bind at 1. rewrite Hd.
  assert (Hob : ob = elts (updateBatches st) !! headIdx (updateBatches st)).
  { unfold dequeue in Hd. destruct (Nat.eqb _ _); [discriminate|]. now inversion Hd. }
  assert (Hq : q' = advance (updateBatches st)).
  { unfold dequeue in Hd. destruct (Nat.eqb _ _); [discriminate|]. now inversion Hd. }
  now rewrite Hob, Hq.
Qed.

Lemma drain_preserves (P : Dataflow -> Prop) fuel nested :
  closed P ->
  (forall st ob q, P st -> dequeue (updateBatches st) = inr (ob, q) ->
                   P (set_updateBatches q st)) ->
  (forall b, preserves P (nested b)) ->
  preserves P (drain fuel nested).
Proof.
  intros Hc Hq Hn. induction fuel as [|fuel IH]; simpl.
  - apply preserves_outOfFuel.
  - apply preserves_bind; [apply preserves_gets | intros e].
    destruct e; [apply preserves_ret|].
    apply preserves_bind.
    { intros st r st' HP E. destruct (dequeue (updateBatches st)) as [e|[b q]] eqn:Ed;
        inversion E; subst; eauto. }
    intros ob. apply preserves_bind; [|intros _; exact IH].
    now apply processBatch_closed.
Qed.



Lemma set_preserves_busy fuel b :
  preserves (fun st => inProgress st = true) (set fuel b).
Proof.
  intros st r st' Hb E. destruct fuel as [|fuel].
  - inversion E; subst. exact Hb.
  - rewrite set_busy in E by assumption. inversion E; subst. exact Hb.
Qed.

Lemma drain_preserves_busy fuel fuel' :
  preserves (fun st => inProgress st = true) (drain fuel (set fuel')).
Proof.
  apply drain_preserves.
  - intros st st' (_ & _ & I) Hb. congruence.
  - intros st ob q Hb _. exact Hb.
  - intros b. apply set_preserves_busy.
Qed.

(** A [set] call that finds the engine idle starts a session; the flag is
    lowered only when the loop over the queue completes normally. *)
Lemma set_idle fuel b st :
  inProgress st = false ->
  set (S fuel) b st
  = match drain fuel (set fuel) (sessionStart b st) with
    | (Normal _, st4) => log LogEnded (set_inProgress false st4)
    | (r, st4) => (abort r, st4)
    end.
Proof.
  intros Hb. simpl. unfold bind at 1, modify at 1. unfold bind at 1, gets at 1. simpl.
  rewrite Hb. unfold bind at 1, modify at 1. unfold bind at 1, modify at 1.
  unfold bind at 1. unfold sessionStart.
  destruct (drain fuel (set fuel) _) as [[[]| | |] st4]; reflexivity.
Qed.

Lemma set_not_Normal_busy fuel b st r st' :
  inProgress st = false ->
  set fuel b st = (r, st') -> isNormal r = false -> fuel <> O ->
  inProgress st' = true.
Proof.
  intros Hb E Hr Hf. destruct fuel as [|fuel]; [contradiction|].
  rewrite set_idle in E by assumption.
  destruct (drain fuel (set fuel) (sessionStart b st)) as [r0 st4] eqn:D.
  assert (I4 : inProgress st4 = true).
  { eapply (drain_preserves_busy fuel fuel); [|exact D]. reflexivity. }
  destruct r0; inversion E; subst; try assumption. discriminate.
Qed.


End SessionLoop.

(** ** [setNodeValue] *)


Lemma getFn_Some st name ref o :
  getFn st name = Some (ref, o) <->
  nameToFn st !! name = Some ref /\ fnObjects st !! ref = Some o.
Proof.
  unfold getFn. destruct (nameToFn st !! name) as [r|];
    [|split; [discriminate | intros [? _]; discriminate]].
  destruct (fnObjects st !! r) as [o'|] eqn:E.
  - split.
    + intros [= <- <-]. auto.
    + intros [Hr Ho]. injection Hr as <-. rewrite E in Ho. now injection Ho as <-.
  - split; [discriminate|].
    intros [Hr Ho]. injection Hr as <-. rewrite E in Ho. discriminate.
Qed.



Section SetNodeValue.
Context `{IsEqual}.


End SetNodeValue.

(** ** Launching a round *)

Section Launch.
Context `{IsEqual}.







End Launch.

(** ** The traversal *)

Lemma chain_app_edge g l u v :
  chain g (l ++ [u]) -> (exists ds, g !! u = Some ds /\ v ∈ ds) -> chain g ((l ++ [u]) ++ [v]).
Proof.
  induction l as [|x l IH]; simpl; intros Hc He.
  - auto.
  - destruct l as [|y l]; simpl in *.
    + destruct Hc as [Hxu _]. auto.
    + destruct Hc as [Hxy Hc]. split; [exact Hxy|]. now apply IH.
Qed.

Lemma chain_drop g n l : chain g l -> chain g (drop n l).
Proof.
  revert l. induction n as [|n IH]; intros l Hc; [now rewrite drop_0|].
  destruct l as [|x l]; [exact I|]. simpl. apply IH.
  destruct l as [|y l]; [exact I|]. now destruct Hc.
Qed.

Lemma indexOf_lookup x l : x ∈ l -> l !! indexOf x l = Some x.
Proof.
  induction l as [|y l IH]; intros Hin; [inversion Hin|]. simpl.
  case_bool_decide as Hy; [now subst|].
  apply elem_of_cons in Hin as [->|Hin]; [contradiction|]. now apply IH.
Qed.

Lemma setDelete_setAdd x l : x ∉ l -> setDelete x (setAdd x l) = l.
Proof.
  intros Hx. unfold setAdd, setDelete. rewrite bool_decide_eq_false_2 by assumption.
  rewrite filter_app. simpl. rewrite filter_cons_False by auto. simpl.
  rewrite app_nil_r. induction l as [|y l IH]; [reflexivity|].
  apply not_elem_of_cons in Hx as [Hne Hx].
  rewrite filter_cons_True by auto. now rewrite IH.
Qed.

Lemma cycleError_namesCycle g path name :
  name ∈ path -> chain g (path ++ [name]) -> namesCycle g (cycleError path name).
Proof.
  intros Hin Hc. exists (cyclePath path name). split; [reflexivity|].
  pose proof (indexOf_lookup _ _ Hin) as Hl.
  pose proof (lookup_lt_Some _ _ _ Hl) as Hlt.
  unfold cyclePath.
  destruct (drop (indexOf name path) path) as [|x rest] eqn:Ed.
  { apply (f_equal length) in Ed. rewrite length_drop in Ed. simpl in Ed. lia. }
  assert (Hx : x = name).
  { pose proof (lookup_drop path (indexOf name path) 0) as Hd.
    rewrite Ed, Nat.add_0_r, Hl in Hd. simpl in Hd. congruence. }
  subst x. split; [|split].
  - rewrite length_app. simpl. lia.
  - change (name :: rest ++ [name]) with ((name :: rest) ++ [name]).
    now rewrite last_snoc.
  - rewrite <- Ed. rewrite <- drop_app_le by lia. now apply chain_drop.
Qed.

Lemma resolved_sameGraph st st' : sameGraph st st' -> resolved st -> resolved st'.
Proof.
  intros (En & _ & Ed & Eh) Hr. unfold resolved in *. rewrite Ed.
  intros u ds Hu. specialize (Hr u ds Hu). eapply Forall_impl; [exact Hr|].
  intros d [[ref o] E]. apply getFn_Some in E as [E1 E2].
  unfold getFn. rewrite En, E1. specialize (Eh ref). rewrite E2 in Eh.
  destruct (fnObjects st' !! ref); [eauto | discriminate].
Qed.

(** The traversal writes nothing but counters. *)
Lemma visitNode_counters_only (P : Dataflow -> Prop) fuel name vs :
  (forall st h, P st -> P (set_fnObjects h st)) ->
  preserves P (visitNode fuel name vs countDirtyDep).
Proof.
  intros Hh. revert name vs. induction fuel as [|fuel IH]; intros name vs; simpl.
  - apply preserves_outOfFuel.
  - pres; auto. unfold visitDownstream. pres; auto.
    unfold countDirtyDep. pres.
    apply preserves_modify. intros st HP. now apply Hh.
Qed.

Lemma visitReachableFnsFromParams_counters_only (P : Dataflow -> Prop) fuel paramNames :
  (forall st h, P st -> P (set_fnObjects h st)) ->
  preserves P (visitReachableFnsFromParams fuel paramNames countDirtyDep).
Proof.
  intros Hh. unfold visitReachableFnsFromParams. pres. now apply visitNode_counters_only.
Qed.

Lemma visitNode_S fuel name vs fnVisitor :
  visitNode (S fuel) name vs fnVisitor
  = if bool_decide (name ∈ visitedInPath vs)
    then throw (cycleError (visitedInPath vs) name)
    else
      (vs3 <- (if bool_decide (name ∈ visited vs)
               then ret (mkVisit (visited vs) (setAdd name (visitedInPath vs)))
               else
                 dsFnNames <- gets (fun st => nodeToDownstreamNodes st !! name) ;;
                 match dsFnNames with
                 | Some ds =>
                     forEachM
                       (visitDownstream fnVisitor
                          (fun dsFnName vs' => visitNode fuel dsFnName vs' fnVisitor))
                       ds (mkVisit ({[name]} ∪ visited vs) (setAdd name (visitedInPath vs)))
                 | None =>
                     ret (mkVisit ({[name]} ∪ visited vs) (setAdd name (visitedInPath vs)))
                 end) ;;
       ret (mkVisit (visited vs3) (setDelete name (visitedInPath vs3)))).
Proof. reflexivity. Qed.

Lemma countDirtyDep_resolved st d :
  is_Some (getFn st d) ->
  exists st1, countDirtyDep (getFn st d) st = (Normal tt, st1) /\ bookkeeping st st1.
Proof.
  intros [[ref o] E]. rewrite E. eexists. split; [reflexivity|].
  now apply bookkeeping_counters.
Qed.

(** The loop over the downstream nodes of [u], for a recursive call that
    keeps the guarantee of a visit. *)
Lemma visitDownstream_path g recurse u ds :
  g !! u = Some ds ->
  (forall d vs st r st',
     nodeToDownstreamNodes st = g -> resolved st ->
     chain g (visitedInPath vs ++ [d]) ->
     recurse d vs st = (r, st') ->
     visitPost g (visitedInPath vs) st r st') ->
  forall l vs st r st' p,
    l ⊆ ds ->
    visitedInPath vs = p ++ [u] ->
    chain g (p ++ [u]) ->
    nodeToDownstreamNodes st = g -> resolved st ->
    forEachM (visitDownstream countDirtyDep recurse) l vs st = (r, st') ->
    visitPost g (p ++ [u]) st r st'.
Proof.
  intros Hu Hrec. induction l as [|d l IH]; intros vs st r st' p Hsub Hp Hc Hg Hres E.
  - inversion E; subst. split; [apply sameGraph_refl | exact Hp].
  - simpl in E. assert (Hd : d ∈ ds) by (apply Hsub; now left).
    assert (Hsome : is_Some (getFn st d)).
    { specialize (Hres u ds). rewrite Hg in Hres. specialize (Hres Hu).
      rewrite Forall_forall in Hres. now apply Hres. }
    destruct (countDirtyDep_resolved st d Hsome) as (st1 & Ecount & Hbk1).
    destruct Hbk1 as (Hsg1 & _).
    unfold visitDownstream at 1 in E. rewrite bind_assoc in E.
    unfold bind at 1, gets at 1 in E. rewrite bind_assoc in E.
    rewrite (bind_Normal _ _ _ _ _ Ecount) in E.
    assert (Hg1 : nodeToDownstreamNodes st1 = g) by (destruct Hsg1 as (_ & _ & -> & _); exact Hg).
    assert (Hres1 : resolved st1) by (eapply resolved_sameGraph; eauto).
    apply bind_inv in E as [(vs2 & st2 & E1 & E2) | (r0 & E1 & Hn & ->)].
    + apply Hrec in E1 as [Hsg2 Hp2]; try assumption.
      2:{ rewrite Hp. apply chain_app_edge; [exact Hc | eauto]. }
      assert (Hg2 : nodeToDownstreamNodes st2 = g)
        by (destruct Hsg2 as (_ & _ & -> & _); exact Hg1).
      assert (Hres2 : resolved st2) by (eapply resolved_sameGraph; eauto).
      destruct (IH vs2 st2 r st' p) as [Hsg3 Hpost]; try assumption.
      { intros x Hx. apply Hsub. now right. }
      { now rewrite Hp2. }
      split; [|exact Hpost].
      eapply sameGraph_trans; [exact Hsg1|]. eapply sameGraph_trans; eauto.
    + apply Hrec in E1 as [Hsg2 Hp2]; try assumption.
      2:{ rewrite Hp. apply chain_app_edge; [exact Hc | eauto]. }
      split; [eapply sameGraph_trans; eauto|].
      destruct r0; first [exact I | exact Hp2].
Qed.

(** A visit that completes leaves the current path as it found it; a visit
    that throws names a cycle of the graph. *)
Lemma visitNode_path g fuel : forall name vs st r st',
  nodeToDownstreamNodes st = g ->
  resolved st ->
  chain g (visitedInPath vs ++ [name]) ->
  visitNode fuel name vs countDirtyDep st = (r, st') ->
  visitPost g (visitedInPath vs) st r st'.
Proof.
  induction fuel as [|fuel IH]; intros name vs st r st' Hg Hres Hc E.
  - inversion E; subst. split; [apply sameGraph_refl | exact I].
  - rewrite visitNode_S in E. case_bool_decide as Hin.
    + inversion E; subst. split; [apply sameGraph_refl|].
      now apply cycleError_namesCycle.
    + assert (Hadd : setAdd name (visitedInPath vs) = visitedInPath vs ++ [name])
        by (unfold setAdd; now rewrite bool_decide_eq_false_2).
      assert (Hinner : forall r1 st1 (m : M VisitState),
                 m st = (r1, st1) ->
                 visitPost g (visitedInPath vs ++ [name]) st r1 st1 ->
                 forall r2 st2,
                 (vs3 <- m ;; ret (mkVisit (visited vs3) (setDelete name (visitedInPath vs3)))) st
                 = (r2, st2) ->
                 visitPost g (visitedInPath vs) st r2 st2).
      { intros r1 st1 m Em [Hsg Hpost] r2 st2 E2.
        apply bind_inv in E2 as [(vs3 & st3 & E3 & E4) | (r0 & E3 & Hn & ->)].
        - rewrite Em in E3. inversion E3; subst. inversion E4; subst.
          split; [exact Hsg|]. simpl. simpl in Hpost. rewrite Hpost, <- Hadd.
          now apply setDelete_setAdd.
        - rewrite Em in E3. inversion E3; subst. split; [exact Hsg|].
          destruct r0; first [exact I | exact Hpost]. }
      case_bool_decide as Hv.
      * eapply Hinner; [reflexivity| |exact E].
        split; [apply sameGraph_refl | exact Hadd].
      * destruct (g !! name) as [ds|] eqn:Eds.
        -- destruct (forEachM
                       (visitDownstream countDirtyDep
                          (fun dsFnName vs' => visitNode fuel dsFnName vs' countDirtyDep))
                       ds (mkVisit ({[name]} ∪ visited vs) (setAdd name (visitedInPath vs))) st)
             as [r1 st1] eqn:El.
           eapply Hinner; [| |exact E].
           { unfold bind at 1, gets at 1. rewrite Hg, Eds. exact El. }
           eapply (visitDownstream_path g _ name ds Eds); [| | | |exact Hg|exact Hres|exact El].
           ++ intros d vs0 st0 r0 st0' Hg0 Hres0 Hc0 E0. eapply IH; eauto.
           ++ reflexivity.
           ++ exact Hadd.
           ++ exact Hc.
        -- eapply Hinner; [| |exact E].
           { unfold bind at 1, gets at 1. rewrite Hg, Eds. reflexivity. }
           split; [apply sameGraph_refl | exact Hadd].
Qed.

Lemma visitReachableFnsFromParams_cycle fuel paramNames st e st' :
  resolved st ->
  visitReachableFnsFromParams fuel paramNames countDirtyDep st = (Thrown e, st') ->
  namesCycle (nodeToDownstreamNodes st) e.
Proof.
  intros Hres E. unfold visitReachableFnsFromParams in E.
  apply bind_inv in E as [(vs & st1 & _ & E2) | (r0 & E1 & Hn & Hr)]; [inversion E2|].
  destruct r0; try discriminate. injection Hr as <-.
  set (g := nodeToDownstreamNodes st) in *.
  assert (Hloop : forall l vs st0 r st1,
             visitedInPath vs = [] -> nodeToDownstreamNodes st0 = g -> resolved st0 ->
             forEachM (fun paramName vs => visitNode fuel paramName vs countDirtyDep) l vs st0
             = (r, st1) ->
             match r with Thrown e => namesCycle g e | _ => True end).
  { induction l as [|x l IH]; intros vs st0 r st1 Hp Hg0 Hres0 El.
    - inversion El; subst. exact I.
    - simpl in El. apply bind_inv in El as [(vs2 & st2 & E1' & E2') | (r0 & E1' & Hn' & ->)].
      + apply (visitNode_path g) in E1' as [Hsg Hp2]; try assumption.
        2:{ rewrite Hp. exact I. }
        eapply (IH vs2 st2); [congruence| |eapply resolved_sameGraph; eauto|exact E2'].
        destruct Hsg as (_ & _ & -> & _). exact Hg0.
      + apply (visitNode_path g) in E1' as [Hsg Hp2]; try assumption.
        2:{ rewrite Hp. exact I. }
        destruct r0; first [exact I | exact Hp2]. }
  exact (Hloop _ (mkVisit ∅ []) _ _ _ eq_refl eq_refl Hres E1).
Qed.

Section CycleAbort.
Context `{IsEqual}.

(** When the traversal throws, the processing of the batch ends there:
    only counters have been written. *)
Lemma processBatch_traversal_throws fuel nested b st e st1 :
  visitReachableFnsFromParams fuel (map fst b) countDirtyDep (snd (resetDirtyDeps st))
  = (Thrown e, st1) ->
  processBatch fuel nested (Some b) st = (Thrown e, st1) /\ countersOnly st st1.
Proof.
  intros E. split.
  - unfold processBatch. unfold bind at 1. unfold resetDirtyDeps at 1, modify at 1.
    unfold resetDirtyDeps, modify in E. simpl in E.
    erewrite bind_abort; [|exact E|reflexivity]. reflexivity.
  - eapply (visitReachableFnsFromParams_counters_only (countersOnly st)); [| |exact E].
    + intros st0 h H0. unfold countersOnly in *. rewrite H0. reflexivity.
    + unfold countersOnly, resetDirtyDeps, modify. reflexivity.
Qed.

(** A session started on an idle engine with an empty queue processes the
    batch of its own [set] call first. *)
Lemma set_idle_first fuel b s :
  inProgress s = false ->
  isEmpty (updateBatches s) = true ->
  set (S (S fuel)) b s
  = match (processBatch fuel (set (S fuel)) (Some b) ;;; drain fuel (set (S fuel)))
            (batchStart b s) with
    | (Normal _, st4) => log LogEnded (set_inProgress false st4)
    | (r, st4) => (abort r, st4)
    end.
Proof.
  intros Hidle Hempty. rewrite set_idle by assumption.
  assert (Hht : tailIdx (updateBatches s) = headIdx (updateBatches s))
    by (apply Nat.eqb_eq; exact Hempty).
  rewrite drain_step.
  - unfold batchStart, sessionStart. simpl. rewrite Hht, lookup_insert_eq. reflexivity.
  - unfold sessionStart, queueOk. simpl. lia.
  - change (Nat.eqb (S (tailIdx (updateBatches s))) (headIdx (updateBatches s)) = false).
    apply Nat.eqb_neq. lia.
Qed.

End CycleAbort.

(** ** The measure of the wavefront *)







(** ** A batch that changes nothing *)

Lemma countersOnly_refl st : countersOnly st st.
Proof. unfold countersOnly. now destruct st. Qed.



Lemma named_sameGraph st st' : sameGraph st st' -> named st -> named st'.
Proof.
  intros (En & _ & _ & Eh) Hn. unfold named in *. rewrite En.
  intros n ref Hr o' Ho'. specialize (Eh ref). rewrite Ho' in Eh.
  destruct (fnObjects st !! ref) as [o|] eqn:Eo; [|discriminate].
  simpl in Eh. injection Eh as E1 _ _. rewrite E1. exact (Hn n ref Hr o Eo).
Qed.


Section Quiet.
Context `{IsEqual}.
Hypothesis isEqual_refl : forall v, isEqual v v = true.
Variable s0 : Dataflow.


Variable nested : Batch -> M unit.







End Quiet.

(** ** Fuel *)













(** ** Processing a batch that changes nothing *)




Section QuietBatch.
Context `{IsEqual}.
Hypothesis isEqual_refl : forall v, isEqual v v = true.


End QuietBatch.


(** ** Registration establishes what the engine relies on *)

Lemma resolved_new fns : resolved (newDataflow fns).
Proof. unfold resolved, newDataflow. simpl. apply map_Forall_empty. Qed.

Lemma named_new fns : named (newDataflow fns).
Proof. unfold named, newDataflow. simpl. apply map_Forall_empty. Qed.

(** What [register(fn, fnName)] does when it completes. *)
Lemma register1_Normal fn fnName st st' :
  register1 fn fnName st = (Normal tt, st') ->
  exists ref o,
    fn = VFunction ref
    /\ fnObjects st !! ref = Some o
    /\ nameToFn st !! fnName = None
    /\ st' = set_nodeToDownstreamNodes
               (fold_left
                  (fun m usName => <[usName := default [] (m !! usName) ++ [fnName]]> m)
                  (fn_params o) (nodeToDownstreamNodes st))
               (set_nodeToUpstreamNodes (<[fnName := fn_params o]> (nodeToUpstreamNodes st))
                  (set_nameToFn (<[fnName := ref]> (nameToFn st)) st)).
Proof.
  unfold register1. destruct fn; try discriminate.
  destruct (fnObjects st !! ref) as [o|] eqn:Eo; [|discriminate].
  case_bool_decide as Hn; [discriminate|]. intros E. injection E as <-.
  exists ref, o. repeat split; try assumption.
  destruct (nameToFn st !! fnName) eqn:En; [|reflexivity].
  exfalso. apply Hn. eauto.
Qed.

Lemma register1_not_Normal_state fn fnName st r st' :
  register1 fn fnName st = (r, st') -> isNormal r = false -> st' = st.
Proof.
  unfold register1. destruct fn; try (intros E _; now inversion E).
  destruct (fnObjects st !! ref); [|intros E _; now inversion E].
  case_bool_decide; intros E Hr; inversion E; subst; [reflexivity | discriminate].
Qed.

Lemma downstream_fold_resolved (Q : string -> Prop) fnName params :
  Q fnName ->
  forall m : gmap string (list string),
    map_Forall (fun _ ds => Forall Q ds) m ->
    map_Forall (fun _ ds => Forall Q ds)
      (fold_left (fun m usName => <[usName := default [] (m !! usName) ++ [fnName]]> m)
         params m).
Proof.
  intros Hq. induction params as [|u params IH]; intros m Hm; simpl; [exact Hm|].
  apply IH. apply map_Forall_insert_2; [|exact Hm].
  apply Forall_app. split; [|now repeat constructor].
  destruct (m !! u) as [ds|] eqn:E; simpl; [exact (Hm u ds E) | constructor].
Qed.

(** Every name that registration puts in a downstream list is a registered
    function. *)
Lemma register1_resolved fn fnName st r st' :
  resolved st -> register1 fn fnName st = (r, st') -> resolved st'.
Proof.
  intros Hres E. destruct r as [[]| | |].
  2-4: now rewrite (register1_not_Normal_state _ _ _ _ _ E eq_refl).
  apply register1_Normal in E as (ref & o & -> & Eo & En & ->).
  unfold resolved. simpl.
  set (st1 := set_nodeToDownstreamNodes _ _).
  assert (Hnew : is_Some (getFn st1 fnName)).
  { unfold getFn, st1. simpl. rewrite lookup_insert_eq, Eo. eauto. }
  apply (downstream_fold_resolved (fun d => is_Some (getFn st1 d))); [exact Hnew|].
  intros u ds Hu. specialize (Hres u ds Hu). eapply Forall_impl; [exact Hres|].
  intros d [[r' o'] E']. apply getFn_Some in E' as [E1 E2].
  unfold getFn, st1. simpl. rewrite lookup_insert_ne by congruence.
  rewrite E1, E2. eauto.
Qed.

Lemma register_resolved fns st r st' :
  resolved st -> register fns st = (r, st') -> resolved st'.
Proof.
  intros Hres E. cut (preserves resolved (register fns)); [intros Hp; exact (Hp _ _ _ Hres E)|].
  clear Hres E.
  assert (H1 : forall fn fnName, preserves resolved (register1 fn fnName)).
  { intros fn fnName s r0 s' Hs E0. eapply register1_resolved; eauto. }
  assert (Hname : forall fn, preserves resolved (nameOf fn)).
  { intros fn s r0 s' Hs E0. unfold nameOf in E0.
    destruct fn; try (inversion E0; subst; exact Hs).
    destruct (fnObjects s !! ref); inversion E0; subst; exact Hs. }
  assert (Hlist : forall l,
             preserves resolved
               (forEachM (fun fn _ => fnName <- nameOf fn ;; register1 fn fnName) l tt)).
  { intros l. apply preserves_forEachM. intros x acc.
    apply preserves_bind; [apply Hname | intros; apply H1]. }
  unfold register. destruct fns as [|fn rest]; [apply Hlist|].
  destruct fn; destruct rest as [|fn2 rest]; try apply Hlist.
  - apply preserves_throw.
  - apply preserves_forEachM. intros [fnName fn] acc. apply H1.
Qed.

(** A function registered under its own name keeps the nodes named after
    their functions; the list form of [register] always does so. *)
Lemma register1_named fn fnName st r st' :
  (forall ref o, fn = VFunction ref -> fnObjects st !! ref = Some o -> fn_name o = fnName) ->
  named st -> register1 fn fnName st = (r, st') -> named st'.
Proof.
  intros Hfn Hn E. destruct r as [[]| | |].
  2-4: now rewrite (register1_not_Normal_state _ _ _ _ _ E eq_refl).
  apply register1_Normal in E as (ref & o & -> & Eo & En & ->).
  unfold named. simpl. apply map_Forall_insert_2; [|exact Hn].
  intros o' Eo'. rewrite Eo in Eo'. injection Eo' as <-. now apply (Hfn ref).
Qed.

Lemma register_list_named fns st r st' :
  named st ->
  forEachM (fun fn _ => fnName <- nameOf fn ;; register1 fn fnName) fns tt st = (r, st') ->
  named st'.
Proof.
  intros Hn E.
  cut (preserves named
         (forEachM (fun fn _ => fnName <- nameOf fn ;; register1 fn fnName) fns tt));
    [intros Hp; exact (Hp _ _ _ Hn E)|].
  clear Hn E.
  apply preserves_forEachM. intros fn [] s r0 s' Hs E0.
  apply bind_inv in E0 as [(fnName & s1 & E1 & E2) | (r1 & E1 & _ & _)].
  - unfold nameOf in E1. destruct fn; try (inversion E1; subst).
    all: try (eapply register1_named; [|exact Hs|exact E2]; intros; discriminate).
    destruct (fnObjects s !! ref) as [o|] eqn:Eo; inversion E1; subst.
    + eapply register1_named; [|exact Hs|exact E2].
      intros ref' o' [= <-] Eo'. rewrite Eo in Eo'. now injection Eo' as <-.
    + eapply register1_named; [|exact Hs|exact E2].
      intros ref' o' [= <-] Eo'. rewrite Eo in Eo'. discriminate.
  - unfold nameOf in E1. destruct fn; try (inversion E1; subst; exact Hs).
    destruct (fnObjects s !! ref); inversion E1; subst; exact Hs.
Qed.

Section SetKeepsGraph.
Context `{IsEqual}.

(** [set] leaves the registered graph as it is. *)
Lemma set_sameGraph st0 fuel : forall b, preserves (sameGraph st0) (set fuel b).
Proof.
  assert (Hc : closed (sameGraph st0)).
  { intros st st' (G & _) H0. eapply sameGraph_trans; eauto. }
  induction fuel as [|fuel IH]; intros b; simpl.
  - apply preserves_outOfFuel.
  - apply preserves_bind; [apply preserves_modify; intros st Hs; exact Hs|intros _].
    apply preserves_bind; [apply preserves_gets|intros busy].
    destruct busy; [apply preserves_ret|].
    apply preserves_bind; [apply preserves_modify; intros st Hs; exact Hs|intros _].
    apply preserves_bind; [apply preserves_modify; intros st Hs; exact Hs|intros _].
    apply preserves_bind; [|intros _].
    { apply drain_preserves; [exact Hc | intros st ob q Hs _; exact Hs | exact IH]. }
    apply preserves_bind; [apply preserves_modify; intros st Hs; exact Hs|intros _].
    apply preserves_modify. intros st Hs. exact Hs.
Qed.

(** The engine keeps what registration established. *)
Lemma set_resolved fuel b st r st' :
  resolved st -> set fuel b st = (r, st') -> resolved st'.
Proof.
  intros Hres E. eapply resolved_sameGraph; [|exact Hres].
  eapply (set_sameGraph st); [apply sameGraph_refl | exact E].
Qed.

Lemma set_named fuel b st r st' :
  named st -> set fuel b st = (r, st') -> named st'.
Proof.
  intros Hn E. eapply named_sameGraph; [|exact Hn].
  eapply (set_sameGraph st); [apply sameGraph_refl | exact E].
Qed.

End SetKeepsGraph.

(** * The claims *)

(** C10. A [null] value in a batch makes the Promise guard throw a
    [TypeError]: the guard on [null] throws it; the value-setting loop of a
    batch with a [null] entry runs as on the entries before it and then
    throws it, so the loop never completes; no name of the cache becomes
    [null] through the loop; objects that are not thenable and functions
    pass the guard. *)
Theorem C10_null_batch_value_throws `{IsEqual} :
  (forall name st, promiseGuard name VNull st = (Thrown nullThenError, st))
  /\ (forall pre name post dirty st,
        setBatchValues (pre ++ (name, VNull) :: post) dirty st
        = (setBatchValues pre dirty ;;; throw nullThenError) st)
  /\ (forall batch dirty st r st' k,
        setBatchValues batch dirty st = (r, st') ->
        value st' !! k = Some VNull -> value st !! k = Some VNull)
  /\ (forall name props st,
        isThenable (VObject props) = false ->
        promiseGuard name (VObject props) st = (Normal tt, st))
  /\ (forall name ref st, promiseGuard name (VFunction ref) st = (Normal tt, st)).
Proof.
  split; [|split; [|split; [|split]]].
  - intros. apply promiseGuard_null.
  - intros. apply setBatchValues_null.
  - intros batch dirty st r st' k E.
    eapply (setBatchValues_no_null batch dirty st); [|exact E]. auto.
  - intros name props st Hn. rewrite promiseGuard_object. now rewrite Hn.
  - reflexivity.
Qed.

Lemma C10_null_batch_value_throws_witness :
  @setBatchValues deepEqual ([("x", VNumber 1)] ++ ("n", VNull) :: [("y", VNumber 2)]) []
    readmeGraph
  = (@setBatchValues deepEqual [("x", VNumber 1)] [] ;;; throw nullThenError) readmeGraph
  /\ promiseGuard "o" (VObject [("k", VNumber 1)]) readmeGraph = (Normal tt, readmeGraph).
Proof.
  destruct (@C10_null_batch_value_throws deepEqual) as (_ & H2 & _ & H4 & _).
  split; [apply H2 | apply H4; reflexivity].
Defined.

(** C3, as the code has it.  A thenable value in a batch makes the
    value-setting loop throw when it reaches that entry: the loop runs as
    on the entries before it, which are written, and then throws; the
    entry itself and the entries after it are not written. *)
Theorem C3_thenable_entry_throws_at_its_turn `{IsEqual} pre name v post dirty st :
  isThenable v = true ->
  setBatchValues (pre ++ (name, v) :: post) dirty st
  = (setBatchValues pre dirty ;;; throw (promiseError name)) st.
Proof. apply setBatchValues_thenable. Qed.

Lemma C3_thenable_entry_throws_at_its_turn_witness :
  isThenable aPromise = true
  /\ @setBatchValues deepEqual ([("x", VNumber 7)] ++ ("p", aPromise) :: []) [] readmeGraph
     = (@setBatchValues deepEqual [("x", VNumber 7)] [] ;;; throw (promiseError "p")) readmeGraph.
Proof.
  split; [reflexivity|].
  apply (@C3_thenable_entry_throws_at_its_turn deepEqual). reflexivity.
Defined.

(** C3 as stated fails: with [{x: 7, p: aPromise}] the call is rejected
    with the Promise error, yet [x] has been cached and flagged. *)
Lemma C3_counterexample :
  let r := @set deepEqual 8 [("x", VNumber 7); ("p", aPromise)] readmeGraph in
  isThenable aPromise = true
  /\ fst r = Thrown (promiseError "p")
  /\ value readmeGraph !! "x" = None
  /\ value (snd r) !! "x" = Some (VNumber 7)
  /\ valueChanged (snd r) !! "x" = Some true.
Proof. vm_compute. repeat split. Qed.




(** C9. A [set] call that starts a session and throws leaves
    [inProgress] set; from then on every [set] call completes normally
    and only appends its batch to the queue: the flag stays set, nothing
    is dequeued and nothing else of the engine changes. *)
Theorem C9_throw_leaves_inProgress_set `{IsEqual} fuel b st e st' :
  inProgress st = false ->
  set fuel b st = (Thrown e, st') ->
  inProgress st' = true
  /\ forall (bs : list Batch) fuel',
       let st'' := set_updateBatches (enqueueAll bs (updateBatches st')) st' in
       forEachM (fun b' _ => set (S fuel') b') bs tt st' = (Normal tt, st'')
       /\ inProgress st'' = true
       /\ headIdx (updateBatches st'') = headIdx (updateBatches st')
       /\ value st'' = value st'
       /\ console st'' = console st'.
Proof.
  intros Hidle E.
  assert (Hb : inProgress st' = true).
  { eapply set_not_Normal_busy; eauto. intros ->. discriminate. }
  split; [exact Hb|]. intros bs fuel'. cbv zeta.
  split; [now apply set_busy_all|]. simpl. repeat split; try assumption.
  clear. generalize (updateBatches st'). induction bs as [|b' bs IH]; intros q; simpl.
  - reflexivity.
  - unfold enqueueAll in IH. now rewrite IH.
Qed.

Lemma C9_throw_leaves_inProgress_set_witness :
  let r := @set deepEqual 8 [("a", VNumber 1)] cycleGraph in
  inProgress cycleGraph = false
  /\ fst r = Thrown (cycleError ["a"; "b"] "a")
  /\ inProgress (snd r) = true
  /\ fst (forEachM (fun b' _ => @set deepEqual 1 b') [[("a", VNumber 2)]] tt (snd r))
     = Normal tt.
Proof.
  cbv zeta.
  assert (E : @set deepEqual 8 [("a", VNumber 1)] cycleGraph
              = (Thrown (cycleError ["a"; "b"] "a"),
                 snd (@set deepEqual 8 [("a", VNumber 1)] cycleGraph))).
  { vm_compute. reflexivity. }
  destruct (@C9_throw_leaves_inProgress_set deepEqual 8 [("a", VNumber 1)] cycleGraph
              _ _ eq_refl E) as [Hb Hall].
  split; [reflexivity|]. split; [now rewrite E|]. split; [exact Hb|].
  destruct (Hall [[("a", VNumber 2)]] O) as [Hr _]. now rewrite Hr.
Defined.








(** C5 fails on the code.  With [e: (x) => { throw "boom" }], a function
    that is not [async], [set({x: 1})] itself is rejected with what the
    producer threw: no error record is written, [inProgress] stays set,
    and the sibling [s: (x) => x + 1], next in the dirty set, is never
    launched. *)
Lemma C5_synchronous_throw_escapes_set :
  let r := @set deepEqual 8 [("x", VNumber 1)] throwingGraph in
  fst r = Thrown (JsThrown (VString "boom"))
  /\ errors (snd r) = []
  /\ inProgress (snd r) = true
  /\ value (snd r) !! "s" = None
  /\ console (snd r) = [LogSetting "x" (VNumber 1)].
Proof. vm_compute. repeat split. Qed.

(** The sibling path: when the producer is [async] and its promise is
    rejected, the failure is recorded and [set] completes. *)
Lemma rejection_is_recorded :
  let r := @set deepEqual 8 [("x", VNumber 1)] rejectingGraph in
  fst r = Normal tt
  /\ errors (snd r) = [mkErrInfo "e" [VNumber 1] (VString "boom")]
  /\ inProgress (snd r) = false
  /\ value (snd r) !! "a" = Some (VNumber 2)
  /\ value (snd r) !! "b" = None.
Proof. vm_compute. repeat split. Qed.

(** C4. A visit of a name that is on the current path throws the cycle
    error.  When the traversal of the downstream closure of a batch throws,
    in a graph whose downstream names are all registered, the processing of
    the batch ends with that error; the error names a cycle of the graph;
    only counters have been written, so no cached value and no changed flag
    has changed; and the [set] call that started the session on an idle
    engine with this batch is rejected with the error, leaving the cache as
    it was. *)
Theorem C4_cycle_aborts_batch `{IsEqual} fuel nested b st e st1 :
  resolved st ->
  visitReachableFnsFromParams fuel (map fst b) countDirtyDep (snd (resetDirtyDeps st))
  = (Thrown e, st1) ->
  (forall fuel' name vs s,
     name ∈ visitedInPath vs ->
     visitNode (S fuel') name vs countDirtyDep s
     = (Thrown (cycleError (visitedInPath vs) name), s))
  /\ processBatch fuel nested (Some b) st = (Thrown e, st1)
  /\ namesCycle (nodeToDownstreamNodes st) e
  /\ value st1 = value st
  /\ valueChanged st1 = valueChanged st
  /\ forall s,
       inProgress s = false ->
       isEmpty (updateBatches s) = true ->
       st = batchStart b s ->
       set (S (S fuel)) b s = (Thrown e, st1) /\ value st1 = value s.
Proof.
  intros Hres E.
  assert (Hcyc : namesCycle (nodeToDownstreamNodes st) e).
  { apply visitReachableFnsFromParams_cycle in E.
    - exact E.
    - eapply resolved_sameGraph; [|exact Hres].
      apply (bookkeeping_reset st). }
  assert (Hco : countersOnly st st1)
    by (eapply (processBatch_traversal_throws fuel nested); exact E).
  assert (Hv : value st1 = value st /\ valueChanged st1 = valueChanged st)
    by (rewrite Hco; split; reflexivity).
  destruct Hv as [Hv Hvc].
  split.
  { intros fuel' name vs s Hin. rewrite visitNode_S.
    now rewrite bool_decide_eq_true_2. }
  split; [eapply processBatch_traversal_throws; exact E|].
  split; [exact Hcyc|]. split; [exact Hv|]. split; [exact Hvc|].
  intros s Hidle Hempty ->. split; [|now rewrite Hv].
  rewrite set_idle_first by assumption.
  destruct (processBatch_traversal_throws fuel (set (S fuel)) b _ e st1 E) as [Ep _].
  erewrite bind_abort; [|exact Ep|reflexivity]. reflexivity.
Qed.

Lemma C4_cycle_aborts_batch_witness :
  let b := [("a", VNumber 1)] in
  let r := @set deepEqual 6 b cycleGraph in
  fst r = Thrown (cycleError ["a"; "b"] "a")
  /\ cycleError ["a"; "b"] "a"
     = JsError "Cycle detected, consisting of nodes: a -> b -> a"
  /\ value (snd r) = value cycleGraph.
Proof.
  cbv zeta.
  assert (Hres : resolved (batchStart [("a", VNumber 1)] cycleGraph)).
  { unfold resolved. apply map_Forall_to_list. vm_compute.
    repeat constructor; eexists; reflexivity. }
  assert (E : visitReachableFnsFromParams 4 (map fst [("a", VNumber 1)]) countDirtyDep
                (snd (resetDirtyDeps (batchStart [("a", VNumber 1)] cycleGraph)))
              = (Thrown (cycleError ["a"; "b"] "a"),
                 snd (visitReachableFnsFromParams 4 (map fst [("a", VNumber 1)]) countDirtyDep
                        (snd (resetDirtyDeps (batchStart [("a", VNumber 1)] cycleGraph))))))
    by (vm_compute; reflexivity).
  destruct (@C4_cycle_aborts_batch deepEqual 4 (@set deepEqual 5) _ _ _ _ Hres E)
    as (_ & _ & _ & _ & _ & Hset).
  destruct (Hset cycleGraph eq_refl eq_refl eq_refl) as [Hs Hv].
  rewrite Hs. split; [reflexivity|]. split; [reflexivity | exact Hv].
Defined.



(** * The runs of the README *)

(** [set({x: 1, y: 2, z: 3})] on the graph of the README calls [a] and [c]
    in the first round, [b] in the second and [d] in the third. *)
Lemma readme_first_update :
  console readmeSettled
  = [LogSetting "x" (VNumber 1); LogSetting "y" (VNumber 2); LogSetting "z" (VNumber 3);
     LogCalling "a" [VNumber 1; VNumber 2]; LogCalling "c" [VNumber 3];
     LogSetting "a" (VNumber 3); LogSetting "c" (VNumber 6);
     LogCalling "b" [VNumber 3; VNumber 6]; LogSetting "b" (VNumber 18);
     LogCalling "d" [VNumber 18]; LogSetting "d" (VNumber 324);
     LogEnded]
  /\ value readmeSettled !! "d" = Some (VNumber 324).
Proof. vm_compute. split; reflexivity. Qed.

(** [set({x: 2})] after it recomputes [a], [b] and [d] only. *)
Lemma readme_second_update :
  let r := @set deepEqual 8 [("x", VNumber 2)] readmeSettled in
  fst r = Normal tt
  /\ console (snd r)
     = console readmeSettled
       ++ [LogSetting "x" (VNumber 2);
           LogCalling "a" [VNumber 2; VNumber 2]; LogSetting "a" (VNumber 4);
           LogCalling "b" [VNumber 4; VNumber 6]; LogSetting "b" (VNumber 24);
           LogCalling "d" [VNumber 24]; LogSetting "d" (VNumber 576);
           LogEnded]
  /\ value (snd r) !! "c" = Some (VNumber 6).
Proof. vm_compute. repeat split. Qed.

(** A batch set from inside a producer is processed when the batch that
    called the producer is done. *)
Lemma nested_update_runs_after :
  let r := @set deepEqual 8 [("x", VNumber 1)] nestedGraph in
  fst r = Normal tt
  /\ console (snd r)
     = [LogSetting "x" (VNumber 1); LogCalling "p" [VNumber 1]; LogSetting "p" (VNumber 1);
        LogNextBatch;
        LogSetting "y" (VNumber 1); LogCalling "q" [VNumber 1]; LogSetting "q" (VNumber 1);
        LogEnded]
  /\ pending (updateBatches (snd r)) = [].
Proof. vm_compute. repeat split. Qed.
